(** * Bretzel VSCode: layout autocompletion, shallow embedding

    Embedding of [src/unnamed/part_000] (the TypeScript source of the
    extension): the schema loader [loadLayouts], the completion provider
    [provideCompletionItems] and the document change listener.

    Strings are ASCII strings ([String.string]); JavaScript string lengths
    and indices are counted in characters.  Parsed JSON values are the
    inductive [json]; a JSON number is kept as the string JavaScript
    writes for it. *)

From Stdlib Require Import ZArith List Bool Lia.
From Stdlib Require Import Strings.String Strings.Ascii.
Import ListNotations.
Open Scope string_scope.
#[local] Set Warnings "-register-all".

(** ** JSON values as returned by [JSON.parse] *)

Inductive json : Type :=
| JNull
| JBool (b : bool)
(** A number, kept as the string [Number.prototype.toString] writes for
    it ([1.5], [1e+21]), which determines the number; [-0] writes [0],
    and [Map] keys (SameValueZero) and truthiness do not tell [-0] from
    [0] either.  [JSON.parse] yields no [NaN]. *)
| JNum (s : string)
| JStr (s : string)
| JArr (xs : list json)
| JObj (fs : list (string * json)).

(** A JavaScript value read from a parsed JSON tree: [None] is [undefined]. *)
Definition jsval := option json.

(** Property read [o.k]: only objects carry named properties in parsed JSON. *)
Fixpoint assoc_get (k : string) (fs : list (string * json)) : jsval :=
  match fs with
  | [] => None
  | (k', v) :: fs' => if String.eqb k k' then Some v else assoc_get k fs'
  end.

Definition prop (v : jsval) (k : string) : jsval :=
  match v with
  | Some (JObj fs) => assoc_get k fs
  | _ => None
  end.

(** JavaScript truthiness. *)
Definition truthy (v : jsval) : bool :=
  match v with
  | None | Some JNull => false
  | Some (JBool b) => b
  | Some (JNum s) => negb (String.eqb s "0")
  | Some (JStr s) => negb (String.eqb s "")
  | Some (JArr _) | Some (JObj _) => true
  end.

(** [typeof v === "object"] (null included, as in JavaScript). *)
Definition is_object (v : jsval) : bool :=
  match v with
  | Some JNull | Some (JArr _) | Some (JObj _) => true
  | _ => false
  end.

Definition is_array (v : jsval) : bool :=
  match v with Some (JArr _) => true | _ => false end.

Definition is_string (v : jsval) : bool :=
  match v with Some (JStr _) => true | _ => false end.

Fixpoint join (sep : string) (xs : list string) : string :=
  match xs with
  | [] => ""
  | [x] => x
  | x :: xs' => x ++ sep ++ join sep xs'
  end.

(** The string [String(v)] returns when it does not throw (when it
    throws is [json_to_string_throws] below); template literals and [+]
    with a string operand convert the same way.
    [Array.prototype.toString] joins the elements with commas, rendering
    [null] elements as the empty string. *)
Fixpoint json_to_string (j : json) : string :=
  match j with
  | JNull => "null"
  | JBool true => "true"
  | JBool false => "false"
  | JNum n => n
  | JStr s => s
  | JArr xs =>
      join "," (map (fun x => match x with JNull => "" | _ => json_to_string x end) xs)
  | JObj _ => "[object Object]"
  end.

Definition js_to_string (v : jsval) : string :=
  match v with
  | None => "undefined"
  | Some j => json_to_string j
  end.

(** [String(v)] throws a [TypeError] on an object with an own [toString]
    property: a parsed value is never callable, so the conversion skips
    it, and the inherited [valueOf] returns the object itself, not a
    primitive.  (With the default hint of [+] the two methods are tried
    in the other order, with the same outcome.)  An array converts its
    elements, [null] apart, so it throws when one of them does. *)
Fixpoint json_to_string_throws (j : json) : bool :=
  match j with
  | JObj fs => existsb (fun kv => String.eqb (fst kv) "toString") fs
  | JArr xs => existsb json_to_string_throws xs
  | _ => false
  end.

Definition to_string_throws (v : jsval) : bool :=
  match v with
  | None => false
  | Some j => json_to_string_throws j
  end.

(** ** [loadLayouts] *)

(** Shape of the loader's result: [rootGlobalAttributes] is optional
    ([None] when the property is absent from the returned object). *)
Record loaded := mkLoaded {
  layouts : list json;
  rootGlobalAttributes : option (list json)
}.

Definition empty_loaded : loaded := mkLoaded [] None.

Section Loader.
(** [fs.readFileSync(file, "utf8")]: [None] when it throws. *)
Variable readFileSync : string -> option string.
(** [JSON.parse(content)]: [None] when it throws. *)
Variable json_parse : string -> option json.

(** [path.join(extensionPath, "data", "layouts.json")] *)
Definition layouts_file (extensionPath : string) : string :=
  extensionPath ++ "/data/layouts.json".

(** Body of the [try] block after parsing; it cannot throw. *)
Definition shape_layouts (parsed : json) : loaded :=
  match parsed with
  | JArr xs => mkLoaded xs None
  | JObj _ =>
      let rootGlobalAttributes :=
        match prop (Some parsed) "globalAttributes" with
        | Some (JArr gs) => Some gs
        | _ => None
        end in
      let layouts :=
        match prop (Some parsed) "layouts" with
        | Some (JArr ls) => ls
        | _ => []
        end in
      mkLoaded layouts rootGlobalAttributes
  | _ => mkLoaded [] None
  end.

(** The whole function: any exception lands in the [catch] block. *)
Definition loadLayouts (extensionPath : string) : loaded :=
  match readFileSync (layouts_file extensionPath) with
  | None => empty_loaded
  | Some content =>
      match json_parse content with
      | None => empty_loaded
      | Some parsed => shape_layouts parsed
      end
  end.
End Loader.

(** ** [effectiveGlobalsMap] *)

(** Keys of a JavaScript [Map] compare with SameValueZero.  Objects and
    arrays produced by [JSON.parse] are all distinct references, so two
    such keys are never the same key. *)
Definition key_eqb (k1 k2 : json) : bool :=
  match k1, k2 with
  | JNull, JNull => true
  | JBool a, JBool b => Bool.eqb a b
  | JNum a, JNum b => String.eqb a b
  | JStr a, JStr b => String.eqb a b
  | _, _ => false
  end.

(** A [Map] keeps its insertion order; [set] on a present key replaces the
    value in place. *)
Definition jsmap := list (json * json).

Fixpoint map_has (k : json) (m : jsmap) : bool :=
  match m with
  | [] => false
  | (k', _) :: m' => key_eqb k k' || map_has k m'
  end.

Fixpoint map_get (k : json) (m : jsmap) : jsval :=
  match m with
  | [] => None
  | (k', v) :: m' => if key_eqb k k' then Some v else map_get k m'
  end.

Definition map_set (k : json) (v : json) (m : jsmap) : jsmap :=
  if map_has k m
  then map (fun kv => if key_eqb k (fst kv) then (fst kv, v) else kv) m
  else (m ++ [(k, v)])%list.

(** Property write on an object literal: in place when present, appended
    otherwise. *)
Definition obj_set (k : string) (v : json) (fs : list (string * json))
  : list (string * json) :=
  if existsb (fun kv => String.eqb k (fst kv)) fs
  then map (fun kv => if String.eqb k (fst kv) then (fst kv, v) else kv) fs
  else (fs ++ [(k, v)])%list.

(** Own enumerable properties copied by a spread [...v]; only objects
    reach the spreads of the source. *)
Definition own_props (v : jsval) : list (string * json) :=
  match v with
  | Some (JObj fs) => fs
  | _ => []
  end.

(** [{ ...a, ...b }] *)
Definition spread2 (a b : jsval) : json :=
  JObj (fold_left (fun acc kv => obj_set (fst kv) (snd kv) acc)
                  (own_props b) (own_props a)).

(** [a && typeof a === "object" && a.name] *)
Definition named_object (a : json) : bool :=
  truthy (Some a) && is_object (Some a) && truthy (prop (Some a) "name").

Definition array_elems (v : jsval) : list json :=
  match v with Some (JArr xs) => xs | _ => [] end.

(** Start with the root global attributes. *)
Definition root_globals (rootGlobalAttributes : option (list json)) : jsmap :=
  match rootGlobalAttributes with
  | Some ((_ :: _) as gs) =>
      fold_left
        (fun m a =>
           if named_object a then
             match prop (Some a) "name" with
             | Some n => map_set n (spread2 (Some a) None) m
             | None => m
             end
           else m)
        gs []
  | _ => []
  end.

(** [perLayoutGlobalsCandidates]: [globalAttributeDefaults], then the
    legacy [globalAttributes], each only when it is an array. *)
Definition per_layout_candidates (l : json) : list json :=
  ((if is_array (prop (Some l) "globalAttributeDefaults")
   then array_elems (prop (Some l) "globalAttributeDefaults") else [])
  ++ (if is_array (prop (Some l) "globalAttributes")
      then array_elems (prop (Some l) "globalAttributes") else []))%list.

(** One iteration of the candidate loop: the map it leaves when it does
    not throw.  It throws exactly when [candidate_throws a] holds, at
    [String(a)]; the exception leaves the provider, which the model
    records in [layout_throws], so the map computed then is never used. *)
Definition apply_candidate (m : jsmap) (a : json) : jsmap :=
  if named_object a then
    match prop (Some a) "name" with
    | Some n =>
        if map_has n m
        then map_set n (spread2 (map_get n m) (Some a)) m
        else map_set n (spread2 (Some a) None) m
    | None => m
    end
  else if truthy (Some a) then
    let s := json_to_string a in
    map_set (JStr s) (JObj [("name", JStr s)]) m
  else m.

(** [String(a)] on a truthy candidate that is not a named object. *)
Definition candidate_throws (a : json) : bool :=
  negb (named_object a) && truthy (Some a) && json_to_string_throws a.

(** [effectiveGlobalsMap] when its construction does not throw, that is
    when no per-layout candidate satisfies [candidate_throws] (the root
    loop converts nothing). *)
Definition effectiveGlobals (rootGlobalAttributes : option (list json))
    (l : json) : jsmap :=
  fold_left apply_candidate (per_layout_candidates l)
            (root_globals rootGlobalAttributes).

(** ** Characters and string scanning *)

Definition dquote : ascii := Ascii.ascii_of_nat 34.
Definition squote : ascii := "'"%char.
Definition nul : ascii := Ascii.ascii_of_nat 0.
(** The one-character string made of a double quote. *)
Definition dq : string := String dquote EmptyString.

(** [\w] without the [u] flag: ASCII letters, digits and underscore. *)
Definition is_word (c : ascii) : bool :=
  let n := Ascii.nat_of_ascii c in
  (Nat.leb 48 n && Nat.leb n 57) || (Nat.leb 65 n && Nat.leb n 90)
  || (Nat.leb 97 n && Nat.leb n 122) || Nat.eqb n 95.

Definition is_dash (c : ascii) : bool := Ascii.eqb c "-"%char.

Definition is_quote (c : ascii) : bool := Ascii.eqb c dquote || Ascii.eqb c squote.

(** [s.charAt(s.length - 1)], [None] standing for the empty string. *)
Fixpoint last_char (s : string) : option ascii :=
  match s with
  | EmptyString => None
  | String c EmptyString => Some c
  | String _ s' => last_char s'
  end.

(** [s.lastIndexOf(c)] *)
Fixpoint last_index_from (c : ascii) (s : string) (i acc : Z) : Z :=
  match s with
  | EmptyString => acc
  | String d s' => last_index_from c s' (i + 1) (if Ascii.eqb c d then i else acc)
  end.

Definition lastIndexOf (c : ascii) (s : string) : Z := last_index_from c s 0 (-1).

(** [s.substring(n)] *)
Fixpoint string_drop (n : nat) (s : string) : string :=
  match n, s with
  | O, _ => s
  | S _, EmptyString => EmptyString
  | S n', String _ s' => string_drop n' s'
  end.

(** [(s.match(/c/g) || []).length] *)
Fixpoint count_char (c : ascii) (s : string) : nat :=
  match s with
  | EmptyString => O
  | String d s' => (if Ascii.eqb c d then 1 else 0) + count_char c s'
  end.

(** ** The prefix gate: [(?:^|\b)], then [data], then [[-\w]*] captured, an optional quote, [$]

    The engine tries start positions from left to right.  At a given
    start the greedy [[-\w]*] followed by an optional quote and [$]
    succeeds exactly when the rest of the string is a run of [[-\w]]
    characters, possibly followed by one final quote; the capture is
    that run. *)

Fixpoint rest_match (t : string) : option string :=
  match t with
  | EmptyString => Some EmptyString
  | String c t' =>
      if is_word c || is_dash c then option_map (String c) (rest_match t')
      else if is_quote c && String.eqb t' EmptyString then Some EmptyString
      else None
  end.

(** [(?:^|\b)] before a [d]: start of input or a non-word previous character. *)
Definition boundary (prev : option ascii) : bool :=
  match prev with
  | None => true
  | Some c => negb (is_word c)
  end.

Definition strip_data (s : string) : option string :=
  match s with
  | String c1 (String c2 (String c3 (String c4 r))) =>
      if Ascii.eqb c1 "d" && Ascii.eqb c2 "a" && Ascii.eqb c3 "t" && Ascii.eqb c4 "a"
      then Some r else None
  | _ => None
  end.

Definition match_here (prev : option ascii) (s : string) : option string :=
  if boundary prev then
    match strip_data s with
    | Some r => option_map (fun w => "data" ++ w) (rest_match r)
    | None => None
    end
  else None.

Fixpoint match_from (prev : option ascii) (s : string) : option string :=
  match s with
  | EmptyString => None
  | String c s' =>
      match match_here prev s with
      | Some m => Some m
      | None => match_from (Some c) s'
      end
  end.

(** [dataMatch ? dataMatch[1] : null] *)
Definition dataMatch (linePrefix : string) : option string := match_from None linePrefix.

(** ** Active layout: [data-layout=], an optional quote, [([\w-]+)],
    an optional quote (flag [u]) *)

Fixpoint word_run (s : string) : string :=
  match s with
  | String c s' => if is_word c || is_dash c then String c (word_run s') else EmptyString
  | EmptyString => EmptyString
  end.

Definition layout_match_here (s : string) : option string :=
  if String.prefix "data-layout=" s then
    let r := string_drop 12 s in
    let without_quote := word_run r in
    match r with
    | String c r' =>
        if is_quote c && negb (String.eqb (word_run r') EmptyString)
        then Some (word_run r')
        else if String.eqb without_quote EmptyString then None else Some without_quote
    | EmptyString => None
    end
  else None.

Fixpoint layout_search (s : string) : option string :=
  match s with
  | EmptyString => None
  | String _ s' =>
      match layout_match_here s with
      | Some w => Some w
      | None => layout_search s'
      end
  end.

(** ** [provideCompletionItems] *)

Record position := mkPos { line : Z; character : Z }.

(** The fields of a [vscode.CompletionItem] the provider sets, plus the
    [effectiveGlobalsMap] it builds for that item.  The rendered texts
    (description, detail, Markdown documentation) are not kept; what is
    kept of their rendering is whether it throws ([layout_throws]). *)
Record item := mkItem {
  label : string;
  filterText : string;
  insertText : string;
  range : position * position;
  preselect : bool;
  sortText : string;
  globals : jsmap
}.

(** The provider returns [undefined], an array of items, or throws. *)
Inductive outcome := Undefined | Items (items : list item) | Throws.

(** [sanitize(desc)], [desc] being [a.description] or the empty string, throws on a truthy
    non-string description of an object entry. *)
Definition desc_throws (a : json) : bool :=
  truthy (Some a) && is_object (Some a)
  && (let d := prop (Some a) "description" in truthy d && negb (is_string d)).

(** [a.name || JSON.stringify(a)], converted by a template literal; the
    [JSON.stringify] of a parsed value does not throw. *)
Definition name_throws (a : json) : bool :=
  let n := prop (Some a) "name" in truthy n && to_string_throws n.

(** A truthy [a.value], converted by a template literal. *)
Definition value_throws (a : json) : bool :=
  let v := prop (Some a) "value" in truthy v && to_string_throws v.

(** An element of [l.attributes], in the summary (lines 151-161) and in
    the documentation (lines 284-300): an object has its [name] and
    [value] converted; any other element goes through [String(a)], which
    does not throw on a primitive. *)
Definition attribute_throws (a : json) : bool :=
  truthy (Some a) && is_object (Some a) && (name_throws a || value_throws a).

(** An element of [l.properties] (lines 318-325). *)
Definition property_throws (p : json) : bool :=
  truthy (Some p) && is_object (Some p) && name_throws p.

(** [a.valueDefault || a.default || a.defaultValue] *)
Definition default_of (a : json) : jsval :=
  let v1 := prop (Some a) "valueDefault" in
  if truthy v1 then v1
  else
    let v2 := prop (Some a) "default" in
    if truthy v2 then v2 else prop (Some a) "defaultValue".

(** A value of the effective map, in the summary (lines 210-223) and in
    the documentation (lines 338-364): [name], a truthy [value] and a
    truthy default are converted. *)
Definition global_entry_throws (a : json) : bool :=
  name_throws a || value_throws a
  || (let d := default_of a in truthy d && to_string_throws d).

(** The steps of the loop body that throw a [TypeError]: [l.name] on
    [null]; the conversion of [l.name] (lines 126, 373-375, 384);
    [sanitize(l.label)] on a non-string label; [sanitize(l.usage)] on a
    truthy non-string usage; [String(a)] on a per-layout candidate
    (line 205); [sanitize(desc)] and the conversions of names, values and
    defaults in the attribute, property and global attribute sections.
    The [console.log] of lines 265-275 is inside a [try]. *)
Definition layout_throws (l : json) (g : jsmap) : bool :=
  let usage := prop (Some l) "usage" in
  let attrs := prop (Some l) "attributes" in
  let props := prop (Some l) "properties" in
  match l with JNull => true | _ => false end
  || negb (is_string (prop (Some l) "label"))
  || to_string_throws (prop (Some l) "name")
  || (truthy usage && negb (is_string usage))
  || existsb candidate_throws (per_layout_candidates l)
  || (is_array attrs
      && existsb (fun a => desc_throws a || attribute_throws a) (array_elems attrs))
  || (is_array props
      && existsb (fun p => desc_throws p || property_throws p) (array_elems props))
  || existsb (fun kv => desc_throws (snd kv) || global_entry_throws (snd kv)) g.

(** One loop iteration over [l]; [None] when it throws. *)
Definition build_item (rootGlobalAttributes : option (list json))
    (replaceRange : position * position) (l : json) : option item :=
  let name := js_to_string (prop (Some l) "name") in
  let originalLabel := "data-layout=" ++ dq ++ name ++ dq in
  let g := effectiveGlobals rootGlobalAttributes l in
  if layout_throws l g then None
  else Some {| label := originalLabel;
               filterText := originalLabel;
               insertText := "data-layout=" ++ dq ++ "${1:" ++ name ++ "}" ++ dq;
               range := replaceRange;
               preselect := true;
               sortText := String nul ("_" ++ name);
               globals := g |}.

Fixpoint build_items (rootGlobalAttributes : option (list json))
    (replaceRange : position * position) (ls : list json) : option (list item) :=
  match ls with
  | [] => Some []
  | l :: ls' =>
      match build_item rootGlobalAttributes replaceRange l with
      | None => None
      | Some it =>
          match build_items rootGlobalAttributes replaceRange ls' with
          | None => None
          | Some its => Some (it :: its)
          end
      end
  end.

(** [layouts.find((x) => x.name === activeLayoutName)]; the result is not
    used by the rest of the provider. *)
Definition find_layout (name : string) (ls : list json) : option json :=
  find (fun x => match prop (Some x) "name" with
                 | Some (JStr n) => String.eqb n name
                 | _ => false
                 end) ls.

(** The quote-parity gate. *)
Definition insideQuotes (linePrefix between : string) : bool :=
  let singleQuotes := count_char squote between in
  let doubleQuotes := count_char dquote between in
  let justTypedQuote :=
    match last_char linePrefix with Some c => is_quote c | None => false end in
  (Nat.odd singleQuotes || Nat.odd doubleQuotes) && negb justTypedQuote.

(** [linePrefix] is [document.lineAt(position.line).text.substring(0,
    position.character)] and [docTextBefore] is the document text from
    the origin to [position]. *)
Definition provideCompletionItems (ld : loaded)
    (linePrefix docTextBefore : string) (pos : position) : outcome :=
  match dataMatch linePrefix with
  | None => Undefined
  | Some prefix =>
      let lastOpen := lastIndexOf "<"%char docTextBefore in
      let lastClose := lastIndexOf ">"%char docTextBefore in
      if Z.eqb lastOpen (-1) || Z.ltb lastOpen lastClose then Undefined
      else
        let between := string_drop (Z.to_nat lastOpen) docTextBefore in
        if insideQuotes linePrefix between then Undefined
        else
          let replaceRange :=
            (mkPos (line pos) (character pos - Z.of_nat (String.length prefix)), pos) in
          let activeLayout :=
            match layout_search between with
            | Some n => find_layout n (layouts ld)
            | None => None
            end in
          match build_items (rootGlobalAttributes ld) replaceRange (layouts ld) with
          | Some items => Items items
          | None => Throws
          end
  end.

(** ** The document change listener *)

(** [/\bdata-$/.test(linePrefix)] *)
Definition ends_with_data_dash (s : string) : bool :=
  match rev (list_ascii_of_string s) with
  | "-"%char :: "a"%char :: "t"%char :: "a"%char :: "d"%char :: rest =>
      match rest with
      | [] => true
      | c :: _ => negb (is_word c)
      end
  | _ => false
  end.

Definition recognized_language (lang : string) : bool :=
  existsb (String.eqb lang) ["html"; "vue"; "markdown"].

Definition is_trigger_text (t : string) : bool :=
  String.eqb t "-" || String.eqb t dq || String.eqb t "'".

(** Number of [editor.action.triggerSuggest] requests issued for one
    change event.  [active_on_document] says that there is an active
    editor showing [e.document]; [linePrefix] is the active editor's line
    up to its cursor, read once per matching change. *)
Definition changeListener (active_on_document : bool) (lang : string)
    (contentChanges : list string) (linePrefix : string) : nat :=
  if negb active_on_document then 0
  else if negb (recognized_language lang) then 0
  else
    fold_left
      (fun n t => if is_trigger_text t && ends_with_data_dash linePrefix then S n else n)
      contentChanges 0.

(** * Properties *)

(** ** General facts about the provider *)

Lemma build_items_Forall2 root rr ls its :
  build_items root rr ls = Some its ->
  Forall2 (fun l it => build_item root rr l = Some it) ls its.
Proof.
  revert its; induction ls as [|l ls IH]; intros its H; simpl in H.
  - injection H as <-; constructor.
  - destruct (build_item root rr l) as [it|] eqn:E1; [|discriminate].
    destruct (build_items root rr ls) as [its'|] eqn:E2; [|discriminate].
    injection H as <-; constructor; auto.
Qed.

Lemma build_items_complete root rr ls :
  Forall (fun l => layout_throws l (effectiveGlobals root l) = false) ls ->
  exists its, build_items root rr ls = Some its /\ List.length its = List.length ls.
Proof.
  induction 1 as [|l ls Hl _ [its [Hits Hlen]]].
  - exists []; split; reflexivity.
  - unfold build_items; fold build_items.
    unfold build_item at 1; rewrite Hl, Hits.
    eexists; split; [reflexivity|]; simpl; congruence.
Qed.

(** What the provider returns when it returns items. *)
Lemma provide_items_inv ld lp dt pos items :
  provideCompletionItems ld lp dt pos = Items items ->
  exists prefix,
    dataMatch lp = Some prefix /\
    build_items (rootGlobalAttributes ld)
      (mkPos (line pos) (character pos - Z.of_nat (String.length prefix)), pos)
      (layouts ld) = Some items.
Proof.
  unfold provideCompletionItems.
  destruct (dataMatch lp) as [prefix|]; [|discriminate].
  destruct (_ || _); [discriminate|].
  destruct (insideQuotes _ _); [discriminate|].
  destruct (build_items _ _ _) eqn:E; intros H; [|discriminate].
  injection H as ->; eauto.
Qed.

(** A single build step: the fields set by the loop body. *)
Lemma build_item_fields root rr l it :
  build_item root rr l = Some it ->
  let name := js_to_string (prop (Some l) "name") in
  label it = "data-layout=" ++ dq ++ name ++ dq /\
  filterText it = label it /\
  insertText it = "data-layout=" ++ dq ++ "${1:" ++ name ++ "}" ++ dq /\
  range it = rr /\
  preselect it = true /\
  sortText it = String nul ("_" ++ name) /\
  globals it = effectiveGlobals root l.
Proof.
  unfold build_item. destruct (layout_throws _ _); [discriminate|].
  intros H; injection H as <-; cbn; repeat split.
Qed.

(** ** Effective global attributes (C1) *)

Definition gap_root : json :=
  JObj [("name", JStr "data-gap"); ("value", JStr "1rem")].

Definition gap_override : json :=
  JObj [("name", JStr "data-gap"); ("defaultValue", JStr "0.5rem")].

Definition gap_merged : json :=
  JObj [("name", JStr "data-gap"); ("value", JStr "1rem");
        ("defaultValue", JStr "0.5rem")].

(** The layout of the claim, its override list kept under the key
    [globalAttributeOverrides]. *)
Definition duo_with_overrides_key : json :=
  JObj [("name", JStr "duo"); ("label", JStr "Duo");
        ("globalAttributeOverrides", JArr [gap_override])].

(** C1, counterexample: the code never reads [globalAttributeOverrides];
    the effective entry for [data-gap] is the root one, with no
    [defaultValue]. *)
Lemma C1_overrides_key_not_read :
  effectiveGlobals (Some [gap_root]) duo_with_overrides_key
    = [(JStr "data-gap", gap_root)] /\
  prop (map_get (JStr "data-gap")
          (effectiveGlobals (Some [gap_root]) duo_with_overrides_key))
       "defaultValue" = None.
Proof. split; reflexivity. Qed.

(** C1 (amended): for a layout object whose per-layout override list
    [[{name: "data-gap", defaultValue: "0.5rem"}]] is given under
    [globalAttributeDefaults] (or under the legacy [globalAttributes]),
    the effective global attribute map built from the root list
    [[{name: "data-gap", value: "1rem"}]] has exactly one entry, keyed
    [data-gap], holding [value: "1rem"] and [defaultValue: "0.5rem"]:
    the override is merged field by field onto the root descriptor. *)
Theorem C1_effective_globals_field_merge (fs : list (string * json)) :
  (assoc_get "globalAttributeDefaults" fs = Some (JArr [gap_override]) /\
   is_array (assoc_get "globalAttributes" fs) = false) \/
  (is_array (assoc_get "globalAttributeDefaults" fs) = false /\
   assoc_get "globalAttributes" fs = Some (JArr [gap_override])) ->
  effectiveGlobals (Some [gap_root]) (JObj fs) = [(JStr "data-gap", gap_merged)].
Proof.
  unfold effectiveGlobals, per_layout_candidates; cbn [prop].
  intros [[Hd Hg] | [Hd Hg]]; rewrite Hd, Hg; reflexivity.
Qed.

Lemma C1_effective_globals_field_merge_witness :
  effectiveGlobals (Some [gap_root])
    (JObj [("name", JStr "duo"); ("label", JStr "Duo");
           ("globalAttributeDefaults", JArr [gap_override])])
  = [(JStr "data-gap", gap_merged)].
Proof.
  apply C1_effective_globals_field_merge.
  left; split; reflexivity.
Defined.

(** ** Schema loading (C2) *)

(** C2: when the schema file cannot be read, or its content does not
    parse, [loadLayouts] returns an empty [layouts] list and no root
    global attributes; it returns normally (the model is a total
    function: the [catch] block absorbs both failures). *)
Theorem C2_load_failure_gives_empty_schema
    (readFileSync : string -> option string) (json_parse : string -> option json)
    (extensionPath : string) :
  readFileSync (layouts_file extensionPath) = None \/
  (exists content, readFileSync (layouts_file extensionPath) = Some content /\
                   json_parse content = None) ->
  loadLayouts readFileSync json_parse extensionPath = mkLoaded [] None.
Proof.
  unfold loadLayouts.
  intros [Hr | [content [Hr Hp]]]; rewrite Hr; [reflexivity|].
  rewrite Hp; reflexivity.
Qed.

Lemma C2_load_failure_gives_empty_schema_witness :
  loadLayouts (fun _ => Some "{ layouts: ") (fun _ => None) "/ext"
  = mkLoaded [] None.
Proof.
  apply C2_load_failure_gives_empty_schema.
  right; exists "{ layouts: "; split; reflexivity.
Defined.

(** ** Sort keys (C3) *)

Lemma Forall2_nth_error {A B} (R : A -> B -> Prop) xs ys i x y :
  Forall2 R xs ys -> nth_error xs i = Some x -> nth_error ys i = Some y -> R x y.
Proof.
  intros HF; revert i; induction HF as [|x' y' xs ys Hxy _ IH]; intros [|i] Hx Hy;
    try discriminate; simpl in *; [congruence|eauto].
Qed.

Lemma Forall2_In_r {A B} (R : A -> B -> Prop) xs ys y :
  Forall2 R xs ys -> In y ys -> exists x, In x xs /\ R x y.
Proof.
  induction 1 as [|x' y' xs ys Hxy _ IH]; simpl; [tauto|].
  intros [<- | Hy]; [eauto|].
  destruct (IH Hy) as [x [Hx HR]]; eauto.
Qed.

Lemma sort_key_ltb (a b : string) :
  String.ltb (String nul ("_" ++ a)) (String nul ("_" ++ b)) = String.ltb a b.
Proof. reflexivity. Qed.

Lemma nul_first (x s : string) (c : ascii) :
  c <> nul -> String.ltb (String nul x) (String c s) = true.
Proof.
  intros Hc. unfold String.ltb; simpl. unfold Ascii.compare.
  destruct (N_of_ascii c) as [|p] eqn:E.
  - exfalso; apply Hc.
    rewrite <- (Ascii.ascii_N_embedding c), E; reflexivity.
  - reflexivity.
Qed.

Definition layout_named (n : string) : json :=
  JObj [("name", JStr n); ("label", JStr n)].

Definition schema_b_a : loaded := mkLoaded [layout_named "b"; layout_named "a"] None.

(** The order the claim asks for: sort keys increase along the list. *)
Definition sort_keys_in_list_order (items : list item) : Prop :=
  forall i j it1 it2, i < j -> nth_error items i = Some it1 ->
    nth_error items j = Some it2 -> String.ltb (sortText it1) (sortText it2) = true.

(** C3, counterexample: with layouts [b] then [a], the sort key of [a]
    comes first lexically, against the schema order. *)
Lemma C3_sort_order_not_schema_order :
  ~ (forall ld lp dt pos items,
        provideCompletionItems ld lp dt pos = Items items ->
        sort_keys_in_list_order items).
Proof.
  intros H.
  pose (lp := "<a data-").
  specialize (H schema_b_a lp lp (mkPos 0 8)
    (match provideCompletionItems schema_b_a lp lp (mkPos 0 8) with
     | Items its => its | _ => [] end) eq_refl).
  specialize (H 0 1 _ _ (le_n 1) eq_refl eq_refl).
  discriminate H.
Qed.

(** C3 (amended): each produced sort key is a NUL character, an
    underscore and the layout name; it sorts before any key whose first
    character is not NUL; two produced keys compare as the two layout
    names compare, so their lexical order is the order of the names, not
    the schema order. *)
Theorem C3_sort_keys ld lp dt pos items :
  provideCompletionItems ld lp dt pos = Items items ->
  Forall2 (fun l it =>
             sortText it = String nul ("_" ++ js_to_string (prop (Some l) "name")))
          (layouts ld) items /\
  (forall it c s, In it items -> c <> nul ->
     String.ltb (sortText it) (String c s) = true) /\
  (forall i j l1 l2 it1 it2,
     nth_error (layouts ld) i = Some l1 -> nth_error items i = Some it1 ->
     nth_error (layouts ld) j = Some l2 -> nth_error items j = Some it2 ->
     String.ltb (sortText it1) (sortText it2)
     = String.ltb (js_to_string (prop (Some l1) "name"))
                  (js_to_string (prop (Some l2) "name"))).
Proof.
  intros H.
  destruct (provide_items_inv _ _ _ _ _ H) as [prefix [_ Hb]].
  apply build_items_Forall2 in Hb.
  assert (HF : Forall2 (fun l it =>
             sortText it = String nul ("_" ++ js_to_string (prop (Some l) "name")))
          (layouts ld) items).
  { eapply Forall2_impl; [|exact Hb].
    intros l it Hl; apply build_item_fields in Hl; tauto. }
  split; [exact HF|split].
  - intros it c s Hin Hc.
    destruct (Forall2_In_r _ _ _ _ HF Hin) as [l [_ ->]].
    now apply nul_first.
  - intros i j l1 l2 it1 it2 H1 H1' H2 H2'.
    rewrite (Forall2_nth_error _ _ _ _ _ _ HF H1 H1'),
            (Forall2_nth_error _ _ _ _ _ _ HF H2 H2').
    apply sort_key_ltb.
Qed.

Lemma C3_sort_keys_witness :
  let lp := "<a data-" in
  Forall2 (fun l it =>
             sortText it = String nul ("_" ++ js_to_string (prop (Some l) "name")))
          (layouts schema_b_a)
          (match provideCompletionItems schema_b_a lp lp (mkPos 0 8) with
           | Items its => its | _ => [] end).
Proof.
  intros lp.
  apply (C3_sort_keys schema_b_a lp lp (mkPos 0 8)).
  reflexivity.
Defined.

(** ** Entries of the declared types render without throwing *)

(** The fields of a descriptor that the loop body converts or sanitizes. *)
Definition text_fields : list string :=
  ["name"; "value"; "description"; "valueDefault"; "default"; "defaultValue"].

(** Fields of a plain descriptor object, of the declared
    [{ name: string; value?: string; description?: string }] type: every
    field the loop body converts or sanitizes (the default fields of the
    global attributes included) holds a string, and no field is named
    [toString]. *)
Definition desc_fields_ok (fs : list (string * json)) : Prop :=
  Forall (fun kv => (In (fst kv) text_fields -> is_string (Some (snd kv)) = true)
                    /\ fst kv <> "toString") fs.

(** A list element: a plain descriptor object, or a primitive. *)
Definition desc_ok (a : json) : Prop :=
  match a with JObj fs => desc_fields_ok fs | JArr _ => False | _ => True end.

(** A layout entry of the declared [LayoutEntry] type: an object with a
    string [name], a string [label], a string [usage] if any, and plain
    descriptors in [attributes], [properties] and its per-layout global
    attribute lists. *)
Definition typed_entry (l : json) : Prop :=
  (exists fs, l = JObj fs) /\
  is_string (prop (Some l) "name") = true /\
  is_string (prop (Some l) "label") = true /\
  (prop (Some l) "usage" = None \/ is_string (prop (Some l) "usage") = true) /\
  Forall desc_ok (array_elems (prop (Some l) "attributes")) /\
  Forall desc_ok (array_elems (prop (Some l) "properties")) /\
  Forall desc_ok (per_layout_candidates l).

Definition typed_schema (ld : loaded) : Prop :=
  Forall desc_ok (match rootGlobalAttributes ld with Some gs => gs | None => [] end) /\
  Forall typed_entry (layouts ld).

Lemma field_string fs k v :
  desc_fields_ok fs -> In k text_fields -> assoc_get k fs = Some v ->
  is_string (Some v) = true.
Proof.
  intros Hfs Hk; induction Hfs as [|[k' w] fs [Hkw _] _ IH]; cbn [assoc_get]; [discriminate|].
  destruct (String.eqb_spec k k') as [<-|_]; [|exact IH].
  intros Hv; injection Hv as <-; now apply Hkw.
Qed.

Lemma string_no_throw v : is_string v = true -> to_string_throws v = false.
Proof. destruct v as [[]|]; cbn; congruence. Qed.

Lemma field_no_throw fs k :
  desc_fields_ok fs -> In k text_fields -> to_string_throws (assoc_get k fs) = false.
Proof.
  intros Hfs Hk; destruct (assoc_get k fs) as [v|] eqn:E; [|reflexivity].
  apply string_no_throw, (field_string fs k); assumption.
Qed.

Ltac text_field := cbn [text_fields In]; tauto.

Lemma desc_ok_no_throw a : desc_ok a -> desc_throws a = false.
Proof.
  destruct a as [|b|n|s|xs|fs]; intros Hok; try contradiction;
    try (unfold desc_throws; cbn [is_object]; rewrite ?andb_false_r; reflexivity).
  unfold desc_throws; cbn [prop truthy is_object andb].
  destruct (assoc_get "description" fs) as [v|] eqn:E; [|reflexivity].
  rewrite (field_string _ "description" _ Hok ltac:(text_field) E); apply andb_false_r.
Qed.

Lemma name_value_no_throw fs :
  desc_fields_ok fs -> name_throws (JObj fs) = false /\ value_throws (JObj fs) = false.
Proof.
  intros Hfs; unfold name_throws, value_throws; cbn [prop].
  rewrite (field_no_throw fs "name"), (field_no_throw fs "value"); try text_field;
    try assumption.
  rewrite !andb_false_r; split; reflexivity.
Qed.

Lemma attribute_ok a : desc_ok a -> attribute_throws a = false.
Proof.
  destruct a as [|b|n|s|xs|fs]; intros Hok; try contradiction;
    try (unfold attribute_throws; cbn [is_object]; rewrite !andb_false_r; reflexivity).
  unfold attribute_throws; destruct (name_value_no_throw fs Hok) as [-> ->].
  apply andb_false_r.
Qed.

Lemma property_ok p : desc_ok p -> property_throws p = false.
Proof.
  destruct p as [|b|n|s|xs|fs]; intros Hok; try contradiction;
    try (unfold property_throws; cbn [is_object]; rewrite !andb_false_r; reflexivity).
  unfold property_throws; destruct (name_value_no_throw fs Hok) as [-> _].
  apply andb_false_r.
Qed.

Lemma no_toString_field fs :
  desc_fields_ok fs -> existsb (fun kv => String.eqb (fst kv) "toString") fs = false.
Proof.
  induction 1 as [|[k w] fs [_ Hk] _ IH]; [reflexivity|]; cbn [existsb fst].
  cbn [fst] in Hk; apply String.eqb_neq in Hk; rewrite Hk; exact IH.
Qed.

Lemma candidate_ok a : desc_ok a -> candidate_throws a = false.
Proof.
  destruct a as [|b|n|s|xs|fs]; intros Hok; try contradiction;
    try (unfold candidate_throws; cbn [json_to_string_throws]; apply andb_false_r).
  unfold candidate_throws; cbn [json_to_string_throws]; rewrite (no_toString_field _ Hok).
  apply andb_false_r.
Qed.

Lemma global_entry_ok a : desc_ok a -> global_entry_throws a = false.
Proof.
  destruct a as [|b|n|s|xs|fs]; intros Hok; try contradiction; try reflexivity.
  unfold global_entry_throws; destruct (name_value_no_throw fs Hok) as [-> ->].
  cbn [orb]; unfold default_of; cbn [prop].
  pose proof (field_no_throw _ "valueDefault" Hok ltac:(text_field)) as H1.
  pose proof (field_no_throw _ "default" Hok ltac:(text_field)) as H2.
  pose proof (field_no_throw _ "defaultValue" Hok ltac:(text_field)) as H3.
  destruct (truthy (assoc_get "valueDefault" fs)); [rewrite H1; apply andb_false_r|].
  destruct (truthy (assoc_get "default" fs)); [rewrite H2; apply andb_false_r|].
  rewrite H3; apply andb_false_r.
Qed.

Lemma obj_set_ok k v fs :
  (In k text_fields -> is_string (Some v) = true) -> k <> "toString" ->
  desc_fields_ok fs -> desc_fields_ok (obj_set k v fs).
Proof.
  intros Hv Hk Hfs; unfold obj_set, desc_fields_ok in *.
  destruct (existsb _ _).
  - apply Forall_map. eapply Forall_impl; [|exact Hfs].
    intros [k' w] Hw; simpl.
    destruct (String.eqb_spec k k') as [<-|_]; simpl; auto.
  - apply Forall_app; split; [exact Hfs|]. constructor; [split; assumption|constructor].
Qed.

Lemma spread2_ok a b :
  desc_fields_ok (own_props a) -> desc_fields_ok (own_props b) ->
  desc_ok (spread2 a b).
Proof.
  unfold spread2; simpl. generalize (own_props a). intros fa Ha Hb.
  revert fa Ha; induction Hb as [|[k v] bs [Hkv Hk] _ IH]; intros fa Ha; simpl; [exact Ha|].
  apply IH, obj_set_ok; auto.
Qed.

Lemma own_props_ok a : desc_ok a -> desc_fields_ok (own_props (Some a)).
Proof. destruct a; simpl; auto; intros; constructor. Qed.

Definition map_ok (m : jsmap) : Prop := Forall (fun kv => desc_ok (snd kv)) m.

Lemma map_set_ok k v m : desc_ok v -> map_ok m -> map_ok (map_set k v m).
Proof.
  intros Hv Hm; unfold map_set, map_ok in *.
  destruct (map_has k m).
  - apply Forall_map; eapply Forall_impl; [|exact Hm].
    intros [k' w] Hw; simpl; destruct (key_eqb k k'); auto.
  - apply Forall_app; split; [exact Hm|constructor; [exact Hv|constructor]].
Qed.

Lemma map_get_ok k m : map_ok m -> desc_fields_ok (own_props (map_get k m)).
Proof.
  induction 1 as [|[k' w] m Hw _ IH]; simpl; [constructor|].
  destruct (key_eqb k k'); [now apply own_props_ok|exact IH].
Qed.

Lemma apply_candidate_ok m a : desc_ok a -> map_ok m -> map_ok (apply_candidate m a).
Proof.
  intros Ha Hm; unfold apply_candidate.
  destruct (named_object a).
  - destruct (prop (Some a) "name") as [n|]; [|exact Hm].
    destruct (map_has n m); apply map_set_ok; auto;
      apply spread2_ok; auto using map_get_ok, own_props_ok; constructor.
  - destruct (truthy (Some a)); [|exact Hm].
    apply map_set_ok; [|exact Hm].
    repeat constructor; simpl; discriminate.
Qed.

Lemma effectiveGlobals_ok root l :
  Forall desc_ok (match root with Some gs => gs | None => [] end) ->
  Forall desc_ok (per_layout_candidates l) ->
  map_ok (effectiveGlobals root l).
Proof.
  intros Hr Hc; unfold effectiveGlobals.
  assert (H0 : map_ok (root_globals root)).
  { unfold root_globals. destruct root as [[|g gs]|]; try constructor.
    generalize (@Forall_nil (json * json) (fun kv => desc_ok (snd kv))).
    generalize (@nil (json * json)).
    induction Hr as [|a gs' Ha _ IH]; intros m Hm; cbn [fold_left]; [exact Hm|].
    apply IH. destruct (named_object a); [|exact Hm].
    destruct (prop (Some a) "name"); [|exact Hm].
    apply map_set_ok; [|exact Hm]. apply spread2_ok; [now apply own_props_ok|constructor]. }
  revert H0; generalize (root_globals root).
  induction Hc as [|a cs Ha _ IH]; intros m Hm; cbn [fold_left]; [exact Hm|].
  apply IH, apply_candidate_ok; assumption.
Qed.

Lemma existsb_Forall_false {A} (P : A -> Prop) (f : A -> bool) xs :
  (forall x, P x -> f x = false) -> Forall P xs -> existsb f xs = false.
Proof. intros Hf; induction 1; cbn [existsb]; [reflexivity|]. rewrite Hf; auto. Qed.

Lemma typed_entry_no_throw root l :
  Forall desc_ok (match root with Some gs => gs | None => [] end) ->
  typed_entry l -> layout_throws l (effectiveGlobals root l) = false.
Proof.
  intros Hr (Hobj & Hname & Hlab & Husage & Hat & Hpr & Hc).
  unfold layout_throws.
  destruct Hobj as [fs ->].
  rewrite Hlab, (string_no_throw _ Hname).
  rewrite (existsb_Forall_false desc_ok _ _ candidate_ok Hc).
  rewrite (existsb_Forall_false desc_ok (fun a => desc_throws a || attribute_throws a) _
             (fun a Ha => f_equal2 orb (desc_ok_no_throw a Ha) (attribute_ok a Ha)) Hat).
  rewrite (existsb_Forall_false desc_ok (fun p => desc_throws p || property_throws p) _
             (fun p Hp => f_equal2 orb (desc_ok_no_throw p Hp) (property_ok p Hp)) Hpr).
  rewrite (existsb_Forall_false (fun kv => desc_ok (snd kv))
             (fun kv => desc_throws (snd kv) || global_entry_throws (snd kv)) _
             (fun kv Hkv => f_equal2 orb (desc_ok_no_throw _ Hkv) (global_entry_ok _ Hkv))
             (effectiveGlobals_ok _ _ Hr Hc)).
  destruct Husage as [-> | ->]; cbn [truthy andb negb orb is_string];
    rewrite ?andb_false_r; reflexivity.
Qed.

(** ** The three gates *)

(** When the three gates pass, the provider returns what the loop builds. *)
Lemma provide_gates_pass ld lp dt pos prefix :
  dataMatch lp = Some prefix ->
  lastIndexOf "<"%char dt <> (-1)%Z ->
  (lastIndexOf ">"%char dt <= lastIndexOf "<"%char dt)%Z ->
  insideQuotes lp (string_drop (Z.to_nat (lastIndexOf "<"%char dt)) dt) = false ->
  provideCompletionItems ld lp dt pos =
  match build_items (rootGlobalAttributes ld)
          (mkPos (line pos) (character pos - Z.of_nat (String.length prefix)), pos)
          (layouts ld) with
  | Some items => Items items
  | None => Throws
  end.
Proof.
  intros Hd Ho Hc Hq; unfold provideCompletionItems; rewrite Hd.
  replace (Z.eqb (lastIndexOf "<"%char dt) (-1)) with false
    by (symmetry; apply Z.eqb_neq; exact Ho).
  replace (Z.ltb (lastIndexOf "<"%char dt) (lastIndexOf ">"%char dt)) with false
    by (symmetry; apply Z.ltb_ge; exact Hc).
  cbn [orb]; rewrite Hq; reflexivity.
Qed.

(** ** Quote parity (C4, C5) *)

Definition class_input : string := "<section class=" ++ dq ++ "data-l" ++ dq.
Definition class_input_open : string := "<section class=" ++ dq ++ "data-l".

(** C4, counterexample: on [class_input], the text [<section class=]
    followed by a double quote, [data-l] and a closing double quote, the
    provider does not return [undefined]. *)
Lemma C4_closed_class_value_not_suppressed :
  provideCompletionItems schema_b_a class_input class_input (mkPos 0 23) <> Undefined.
Proof. vm_compute; discriminate. Qed.

(** C4 (amended): on [class_input] the prefix gate matches [data-l] and
    the text holds two double quotes, an even count, so the quote-parity
    gate does not suppress: the provider returns the list built over all
    layouts (replacing the six characters of [data-l]).  Suppression
    happens on [class_input_open], the same text without the closing
    double quote, where the double quote count is odd and the last
    character is not a quote. *)
Theorem C4_quote_parity_on_class_value ld pos :
  dataMatch class_input = Some "data-l" /\
  insideQuotes class_input class_input = false /\
  provideCompletionItems ld class_input class_input pos =
  match build_items (rootGlobalAttributes ld)
          (mkPos (line pos) (character pos - 6)%Z, pos) (layouts ld) with
  | Some items => Items items
  | None => Throws
  end /\
  provideCompletionItems ld class_input_open class_input_open pos = Undefined.
Proof.
  split; [reflexivity|split; [reflexivity|split]].
  - apply (provide_gates_pass ld class_input class_input pos "data-l");
      [reflexivity|discriminate|vm_compute; discriminate|reflexivity].
  - reflexivity.
Qed.

Definition layout_quote_input : string := "<section data-layout=" ++ dq.
Definition data_quote_input : string := "<section data-" ++ dq.

(** C5, counterexample: on [layout_quote_input], the text
    [<section data-layout=] followed by a double quote, the prefix gate
    already fails (the equals sign is not a token character), so the
    provider returns [undefined] although the schema has layouts. *)
Lemma C5_layout_equals_quote_rejected :
  layouts schema_b_a <> [] /\
  dataMatch layout_quote_input = None /\
  provideCompletionItems schema_b_a layout_quote_input layout_quote_input (mkPos 0 22)
    = Undefined.
Proof. split; [discriminate|split; reflexivity]. Qed.

(** C5 (amended): the just-typed-quote exception applies where the
    prefix gate accepts a quote, on [data_quote_input], the text
    [<section data-] followed by a double quote: the double quote count
    is odd but the last character is that quote, so for every schema of
    the declared types ([typed_schema]: string names, labels and usages,
    plain descriptors with string fields and no [toString] field, on
    which no conversion of the loop body throws) with at least one layout
    the provider returns a non-empty list, one suggestion per layout.  On [layout_quote_input]
    it returns [undefined] for every schema. *)
Theorem C5_just_typed_quote_offers ld pos :
  layouts ld <> [] -> typed_schema ld ->
  provideCompletionItems ld layout_quote_input layout_quote_input pos = Undefined /\
  exists items,
    provideCompletionItems ld data_quote_input data_quote_input pos = Items items /\
    items <> [] /\ List.length items = List.length (layouts ld).
Proof.
  intros Hne [Hr Hl]; split; [reflexivity|].
  rewrite (provide_gates_pass ld data_quote_input data_quote_input pos "data-");
    [|reflexivity|discriminate|vm_compute; discriminate|reflexivity].
  destruct (build_items_complete (rootGlobalAttributes ld)
              (mkPos (line pos) (character pos - Z.of_nat (String.length "data-")), pos)
              (layouts ld)) as [its [Hb Hlen]].
  { eapply Forall_impl; [|exact Hl]. intros l; now apply typed_entry_no_throw. }
  rewrite Hb; exists its; split; [reflexivity|split; [|exact Hlen]].
  intros ->; apply Hne; destruct (layouts ld); [reflexivity|discriminate Hlen].
Qed.

Lemma C5_just_typed_quote_offers_witness :
  provideCompletionItems schema_b_a layout_quote_input layout_quote_input (mkPos 0 15)
    = Undefined /\
  exists items,
    provideCompletionItems schema_b_a data_quote_input data_quote_input (mkPos 0 15)
      = Items items /\ items <> [] /\ List.length items = List.length (layouts schema_b_a).
Proof.
  apply C5_just_typed_quote_offers; [discriminate|].
  split; [constructor|].
  repeat constructor; try (eexists; reflexivity); left; reflexivity.
Defined.

(** ** Replacement span (C6) *)

(** C6: every produced suggestion replaces the span that ends at the
    cursor and starts, on the cursor's line, at the cursor column minus
    the length of the prefix captured by the prefix gate; all suggestions
    of one result share that span. *)
Theorem C6_replacement_span ld lp dt pos items :
  provideCompletionItems ld lp dt pos = Items items ->
  exists prefix,
    dataMatch lp = Some prefix /\
    Forall (fun it =>
              range it = (mkPos (line pos)
                                (character pos - Z.of_nat (String.length prefix)), pos))
           items.
Proof.
  intros H.
  destruct (provide_items_inv _ _ _ _ _ H) as [prefix [Hd Hb]].
  exists prefix; split; [exact Hd|].
  apply build_items_Forall2 in Hb; clear H Hd.
  induction Hb as [|l it ls its Hl _ IH]; [constructor|constructor; [|exact IH]].
  apply build_item_fields in Hl; tauto.
Qed.

Lemma C6_replacement_span_witness :
  exists prefix,
    dataMatch "<a data-l" = Some prefix /\
    Forall (fun it =>
              range it = (mkPos 0 (9 - Z.of_nat (String.length prefix)), mkPos 0 9))
           (match provideCompletionItems schema_b_a "<a data-l" "<a data-l" (mkPos 0 9) with
            | Items its => its | _ => [] end).
Proof.
  apply (C6_replacement_span schema_b_a "<a data-l" "<a data-l" (mkPos 0 9)).
  reflexivity.
Defined.

(** ** Label, filter text and inserted text (C7) *)

(** C7: the suggestion built from layout [l] has label and filter text
    both equal to [data-layout=] followed by the layout name between
    double quotes, and inserts the snippet [data-layout=], a double quote,
    the placeholder [${1:name}], a double quote, whose placeholder holds
    the same name. *)
Theorem C7_label_filter_insert_agree ld lp dt pos items :
  provideCompletionItems ld lp dt pos = Items items ->
  Forall2 (fun l it =>
             let name := js_to_string (prop (Some l) "name") in
             label it = "data-layout=" ++ dq ++ name ++ dq /\
             filterText it = label it /\
             insertText it = "data-layout=" ++ dq ++ "${1:" ++ name ++ "}" ++ dq)
          (layouts ld) items.
Proof.
  intros H.
  destruct (provide_items_inv _ _ _ _ _ H) as [prefix [_ Hb]].
  apply build_items_Forall2 in Hb.
  eapply Forall2_impl; [|exact Hb].
  intros l it Hl; apply build_item_fields in Hl; cbv zeta in *; tauto.
Qed.

Lemma C7_label_filter_insert_agree_witness :
  Forall2 (fun l it =>
             let name := js_to_string (prop (Some l) "name") in
             label it = "data-layout=" ++ dq ++ name ++ dq /\
             filterText it = label it /\
             insertText it = "data-layout=" ++ dq ++ "${1:" ++ name ++ "}" ++ dq)
          (layouts schema_b_a)
          (match provideCompletionItems schema_b_a "<a data-" "<a data-" (mkPos 0 8) with
           | Items its => its | _ => [] end).
Proof.
  apply (C7_label_filter_insert_agree schema_b_a "<a data-" "<a data-" (mkPos 0 8)).
  reflexivity.
Defined.

(** ** Empty schema (C10) *)

(** C10: with no layouts, when the three gates pass, the provider returns
    an empty list, not the [undefined] of a failed gate. *)
Theorem C10_empty_schema_empty_list ld lp dt pos prefix :
  layouts ld = [] ->
  dataMatch lp = Some prefix ->
  lastIndexOf "<"%char dt <> (-1)%Z ->
  (lastIndexOf ">"%char dt <= lastIndexOf "<"%char dt)%Z ->
  insideQuotes lp (string_drop (Z.to_nat (lastIndexOf "<"%char dt)) dt) = false ->
  provideCompletionItems ld lp dt pos = Items [] /\
  provideCompletionItems ld lp dt pos <> Undefined.
Proof.
  intros Hl Hd Ho Hc Hq.
  rewrite (provide_gates_pass ld lp dt pos prefix Hd Ho Hc Hq), Hl.
  split; [reflexivity|discriminate].
Qed.

Lemma C10_empty_schema_empty_list_witness :
  provideCompletionItems (mkLoaded [] None) "<a data-" "<a data-" (mkPos 0 8) = Items [] /\
  provideCompletionItems (mkLoaded [] None) "<a data-" "<a data-" (mkPos 0 8) <> Undefined.
Proof.
  apply (C10_empty_schema_empty_list _ _ _ _ "data-");
    [reflexivity|reflexivity|discriminate|vm_compute; discriminate|reflexivity].
Defined.

(** ** String facts *)

Lemma append_empty_r (s : string) : s ++ "" = s.
Proof. induction s as [|c s IH]; simpl; [reflexivity|now rewrite IH]. Qed.

Lemma list_ascii_of_string_app (a b : string) :
  list_ascii_of_string (a ++ b) = (list_ascii_of_string a ++ list_ascii_of_string b)%list.
Proof. induction a as [|c a IH]; simpl; [reflexivity|now rewrite IH]. Qed.

Lemma last_char_cons_ne c s : s <> "" -> last_char (String c s) = last_char s.
Proof. destruct s; [contradiction|reflexivity]. Qed.

Lemma last_char_nonempty c s : last_char (String c s) <> None.
Proof.
  revert c; induction s as [|c' s IH]; intros c; [discriminate|].
  rewrite last_char_cons_ne by discriminate; apply IH.
Qed.

Lemma last_char_app a b : b <> "" -> last_char (a ++ b) = last_char b.
Proof.
  intros Hb; induction a as [|c a IH]; [reflexivity|].
  cbn [append]; rewrite last_char_cons_ne; [exact IH|].
  destruct a; [exact Hb|discriminate].
Qed.

Lemma app_ne (a b : string) : b <> "" -> a ++ b <> "".
Proof. destruct a; [auto|discriminate]. Qed.

Lemma last_char_rev p : last_char p = hd_error (rev (list_ascii_of_string p)).
Proof.
  induction p as [|c p IH]; [reflexivity|].
  destruct p as [|c' p']; [reflexivity|].
  rewrite last_char_cons_ne by discriminate; rewrite IH.
  cbn [list_ascii_of_string rev].
  destruct (rev (list_ascii_of_string p')); reflexivity.
Qed.

Lemma forallb_last_char f s c :
  forallb f (list_ascii_of_string s) = true -> last_char s = Some c -> f c = true.
Proof.
  induction s as [|c' s IH]; [discriminate|].
  cbn [list_ascii_of_string forallb]; intros H Hl; apply andb_true_iff in H.
  destruct s as [|c'' s'].
  - injection Hl as <-; tauto.
  - rewrite last_char_cons_ne in Hl by discriminate; apply IH; tauto.
Qed.

(** ** The change listener (C8) *)

Lemma ends_with_data_dash_app p :
  ends_with_data_dash (p ++ "data-") = boundary (last_char p).
Proof.
  unfold ends_with_data_dash.
  rewrite list_ascii_of_string_app, rev_app_distr, last_char_rev.
  cbn. destruct (rev (list_ascii_of_string p)); reflexivity.
Qed.

Lemma ends_with_data_no_dash p : ends_with_data_dash (p ++ "data") = false.
Proof.
  unfold ends_with_data_dash.
  rewrite list_ascii_of_string_app, rev_app_distr; reflexivity.
Qed.

(** C8: on a document of a recognized language shown by the active
    editor, a change batch made of one inserted hyphen issues exactly one
    reopen request when the line up to the cursor ends with [data-] at a
    word boundary, and none when it ends with [data] without the hyphen. *)
Theorem C8_hyphen_trigger lang p :
  recognized_language lang = true ->
  boundary (last_char p) = true ->
  changeListener true lang ["-"] (p ++ "data-") = 1 /\
  (forall p', changeListener true lang ["-"] (p' ++ "data") = 0).
Proof.
  intros Hl Hb; unfold changeListener; rewrite Hl; cbn [negb fold_left].
  split.
  - rewrite ends_with_data_dash_app, Hb; reflexivity.
  - intros p'; rewrite ends_with_data_no_dash, andb_false_r; reflexivity.
Qed.

Lemma C8_hyphen_trigger_witness :
  changeListener true "html" ["-"] ("<div " ++ "data-") = 1 /\
  (forall p', changeListener true "html" ["-"] (p' ++ "data") = 0).
Proof. apply C8_hyphen_trigger; reflexivity. Defined.

(** ** The prefix gate (C9) *)

Definition word_or_dash (c : ascii) : bool := is_word c || is_dash c.

Definition quote_suffix (q : string) : Prop := q = "" \/ q = dq \/ q = "'".

(** The character before a candidate start: the last character of the
    skipped part [p], or the one before the scan if [p] is empty. *)
Definition prev_char (prev : option ascii) (p : string) : option ascii :=
  match last_char p with Some c => Some c | None => prev end.

Lemma prev_char_cons prev c p : prev_char prev (String c p) = prev_char (Some c) p.
Proof.
  unfold prev_char; destruct p as [|c' p']; [reflexivity|].
  rewrite last_char_cons_ne by discriminate.
  destruct (last_char (String c' p')) eqn:E; [reflexivity|].
  exfalso; exact (last_char_nonempty _ _ E).
Qed.

Lemma prev_char_none p : prev_char None p = last_char p.
Proof. unfold prev_char; destruct (last_char p); reflexivity. Qed.

Lemma strip_data_sound s r : strip_data s = Some r -> s = "data" ++ r.
Proof.
  unfold strip_data.
  destruct s as [|c1 [|c2 [|c3 [|c4 r']]]]; try discriminate.
  destruct (Ascii.eqb_spec c1 "d"), (Ascii.eqb_spec c2 "a"),
           (Ascii.eqb_spec c3 "t"), (Ascii.eqb_spec c4 "a"); try discriminate.
  intros H; injection H as <-; subst; reflexivity.
Qed.

Lemma is_quote_cases c : is_quote c = true -> String c "" = dq \/ String c "" = "'".
Proof.
  unfold is_quote, dq; intros H; apply orb_true_iff in H.
  destruct H as [H|H]; apply Ascii.eqb_eq in H; subst; [left|right]; reflexivity.
Qed.

Lemma rest_match_sound t w :
  rest_match t = Some w ->
  exists q, t = w ++ q /\ forallb word_or_dash (list_ascii_of_string w) = true /\
            quote_suffix q.
Proof.
  revert w; induction t as [|c t IH]; intros w H; cbn [rest_match] in H.
  - injection H as <-; exists ""; repeat split; left; reflexivity.
  - destruct (is_word c || is_dash c) eqn:Hc.
    + destruct (rest_match t) as [w'|] eqn:E; [|discriminate].
      cbn in H; injection H as <-.
      destruct (IH w' eq_refl) as [q [-> [Hw Hq]]].
      exists q; split; [reflexivity|split; [|exact Hq]].
      cbn [list_ascii_of_string forallb]; rewrite Hw, andb_true_r; exact Hc.
    + destruct (is_quote c) eqn:Hq; [|discriminate].
      destruct (String.eqb_spec t "") as [->|]; [|discriminate].
      injection H as <-; exists (String c ""); split; [reflexivity|split; [reflexivity|]].
      right; now apply is_quote_cases.
Qed.

Lemma rest_match_complete tok q :
  forallb word_or_dash (list_ascii_of_string tok) = true -> quote_suffix q ->
  rest_match (tok ++ q) = Some tok.
Proof.
  intros Htok Hq; induction tok as [|c tok IH].
  - destruct Hq as [-> | [-> | ->]]; reflexivity.
  - cbn [list_ascii_of_string forallb] in Htok; apply andb_true_iff in Htok.
    destruct Htok as [Hc Ht]; unfold word_or_dash in Hc.
    cbn [append rest_match]; rewrite Hc, (IH Ht); reflexivity.
Qed.

Lemma match_from_sound prev s prefix :
  match_from prev s = Some prefix ->
  exists p tok q,
    s = p ++ prefix ++ q /\ prefix = "data" ++ tok /\
    boundary (prev_char prev p) = true /\
    forallb word_or_dash (list_ascii_of_string tok) = true /\ quote_suffix q.
Proof.
  revert prev; induction s as [|c s IH]; intros prev H; cbn [match_from] in H;
    [discriminate|].
  destruct (match_here prev (String c s)) as [m|] eqn:E.
  - injection H as <-. unfold match_here in E.
    destruct (boundary prev) eqn:Hb; [|discriminate].
    destruct (strip_data (String c s)) as [r|] eqn:Hs; [|discriminate].
    apply strip_data_sound in Hs.
    destruct (rest_match r) as [w|] eqn:Hr; [|discriminate].
    cbn in E; injection E as <-.
    destruct (rest_match_sound _ _ Hr) as [q [-> [Hw Hq]]].
    exists "", w, q; rewrite Hs; repeat split; auto.
  - destruct (IH (Some c) H) as (p & tok & q & Hs & Hp & Hb & Ht & Hq).
    exists (String c p), tok, q; rewrite prev_char_cons, Hs; repeat split; auto.
Qed.

Lemma match_from_complete prev p tok q :
  boundary (prev_char prev p) = true ->
  forallb word_or_dash (list_ascii_of_string tok) = true -> quote_suffix q ->
  match_from prev (p ++ "data" ++ tok ++ q) <> None.
Proof.
  revert prev; induction p as [|c p IH]; intros prev Hb Ht Hq.
  - cbn [append match_from].
    unfold match_here; cbn [prev_char last_char] in Hb; rewrite Hb.
    cbn [strip_data Ascii.eqb]. cbn -[rest_match].
    rewrite (rest_match_complete _ _ Ht Hq); discriminate.
  - cbn [append match_from].
    destruct (match_here prev _); [discriminate|].
    apply IH; [rewrite <- (prev_char_cons prev); exact Hb|exact Ht|exact Hq].
Qed.

(** The form of the claim: [data] followed by letters, digits or
    hyphens only. *)
Definition letter_digit_hyphen (c : ascii) : bool :=
  let n := Ascii.nat_of_ascii c in
  (Nat.leb 48 n && Nat.leb n 57) || (Nat.leb 65 n && Nat.leb n 90)
  || (Nat.leb 97 n && Nat.leb n 122) || is_dash c.

Definition claim_prefix_form (s : string) : Prop :=
  exists p tok q,
    s = p ++ "data" ++ tok ++ q /\ boundary (last_char p) = true /\
    forallb letter_digit_hyphen (list_ascii_of_string tok) = true /\ quote_suffix q.

(** C9, counterexample: [<a data_] is not of the form of the claim (its
    token ends with an underscore), yet the prefix gate accepts it and the
    provider returns suggestions. *)
Lemma C9_underscore_accepted :
  ~ claim_prefix_form "<a data_" /\
  dataMatch "<a data_" = Some "data_" /\
  provideCompletionItems schema_b_a "<a data_" "<a data_" (mkPos 0 8) <> Undefined.
Proof.
  split; [|split; [reflexivity|vm_compute; discriminate]].
  intros (p & tok & q & Hs & _ & Ht & Hq).
  assert (Hl : last_char ("data" ++ tok ++ q) = Some "_"%char).
  { rewrite <- (last_char_app p) by discriminate. rewrite <- Hs; reflexivity. }
  destruct Hq as [-> | [-> | ->]].
  - rewrite append_empty_r in Hl.
    destruct tok as [|c tok'].
    + discriminate Hl.
    + rewrite last_char_app in Hl by discriminate.
      pose proof (forallb_last_char _ _ _ Ht Hl); discriminate.
  - rewrite !last_char_app in Hl by (try apply app_ne; unfold dq; discriminate).
    vm_compute in Hl; discriminate Hl.
  - rewrite !last_char_app in Hl by (try apply app_ne; discriminate).
    vm_compute in Hl; discriminate Hl.
Qed.

(** C9 (amended): the prefix gate accepts exactly the line prefixes that
    end in a token made of [data] followed only by ASCII letters, digits,
    underscores or hyphens (the class [[-\w]]), starting at the start of
    the line or after a non-word character, optionally followed by one
    single or double quote at the end; the captured prefix is such a
    token, without the quote; when the gate rejects, the provider returns
    [undefined]. *)
Theorem C9_prefix_gate s :
  (forall prefix, dataMatch s = Some prefix ->
     exists p tok q,
       s = p ++ prefix ++ q /\ prefix = "data" ++ tok /\
       boundary (last_char p) = true /\
       forallb word_or_dash (list_ascii_of_string tok) = true /\ quote_suffix q) /\
  ((exists p tok q,
      s = p ++ "data" ++ tok ++ q /\ boundary (last_char p) = true /\
      forallb word_or_dash (list_ascii_of_string tok) = true /\ quote_suffix q) ->
   dataMatch s <> None) /\
  (dataMatch s = None -> forall ld dt pos, provideCompletionItems ld s dt pos = Undefined).
Proof.
  split; [|split].
  - intros prefix H.
    destruct (match_from_sound None s prefix H) as (p & tok & q & Hs & Hp & Hb & Ht & Hq).
    exists p, tok, q; rewrite <- prev_char_none; auto.
  - intros (p & tok & q & -> & Hb & Ht & Hq).
    apply match_from_complete; [rewrite prev_char_none|..]; assumption.
  - intros H ld dt pos; unfold provideCompletionItems; rewrite H; reflexivity.
Qed.

Lemma C9_prefix_gate_witness :
  dataMatch ("<div " ++ "data-layout" ++ dq) <> None.
Proof.
  apply (proj1 (proj2 (C9_prefix_gate ("<div " ++ "data-layout" ++ dq)))).
  exists "<div ", "-layout", dq; split; [reflexivity|split; [reflexivity|split]].
  - reflexivity.
  - right; left; reflexivity.
Defined.

(** * Further properties of the code *)

(** ** The effective global attribute map *)

Lemma assoc_get_replace_same k v fa :
  existsb (fun kv => String.eqb k (fst kv)) fa = true ->
  assoc_get k (map (fun kv => if String.eqb k (fst kv) then (fst kv, v) else kv) fa)
  = Some v.
Proof.
  induction fa as [|[k' w] fa IH]; [discriminate|].
  cbn [existsb map fst assoc_get]; intros E.
  destruct (String.eqb_spec k k') as [<-|Hk]; cbn [assoc_get fst].
  - rewrite String.eqb_refl; reflexivity.
  - apply String.eqb_neq in Hk; rewrite Hk; apply IH; exact E.
Qed.

Lemma assoc_get_replace_other k k1 v fa :
  k <> k1 ->
  assoc_get k (map (fun kv => if String.eqb k1 (fst kv) then (fst kv, v) else kv) fa)
  = assoc_get k fa.
Proof.
  intros Hne; induction fa as [|[k' w] fa IH]; [reflexivity|].
  cbn [map fst assoc_get].
  destruct (String.eqb_spec k1 k') as [<-|_]; cbn [assoc_get fst].
  - pose proof Hne as Hne'; apply String.eqb_neq in Hne'; rewrite Hne'; exact IH.
  - rewrite IH; reflexivity.
Qed.

Lemma assoc_get_obj_set k k1 v fa :
  assoc_get k (obj_set k1 v fa) = if String.eqb k k1 then Some v else assoc_get k fa.
Proof.
  unfold obj_set.
  destruct (existsb (fun kv => String.eqb k1 (fst kv)) fa) eqn:E.
  - destruct (String.eqb_spec k k1) as [->|Hne].
    + now apply assoc_get_replace_same.
    + now apply assoc_get_replace_other.
  - induction fa as [|[k' w] fa IH]; cbn [app assoc_get].
    + destruct (String.eqb k k1); reflexivity.
    + cbn [existsb fst] in E; apply orb_false_iff in E as [E1 E2].
      destruct (String.eqb_spec k k') as [<-|Hk].
      * rewrite (String.eqb_sym k k1), E1; reflexivity.
      * apply IH; exact E2.
Qed.

Lemma assoc_get_not_in k fs : ~ In k (map fst fs) -> assoc_get k fs = None.
Proof.
  induction fs as [|[k' w] fs IH]; intros H; [reflexivity|]; cbn [assoc_get].
  destruct (String.eqb_spec k k') as [->|_]; [exfalso; apply H; left; reflexivity|].
  apply IH; intros Hin; apply H; right; exact Hin.
Qed.

Lemma fold_obj_set_get k fb fa :
  NoDup (map fst fb) ->
  assoc_get k (fold_left (fun acc kv => obj_set (fst kv) (snd kv) acc) fb fa)
  = match assoc_get k fb with Some v => Some v | None => assoc_get k fa end.
Proof.
  revert fa; induction fb as [|[k1 v1] fb IH]; intros fa Hnd; [reflexivity|].
  inversion Hnd as [|? ? Hnot Hnd']; subst.
  cbn [fold_left fst snd assoc_get]; rewrite (IH _ Hnd'), assoc_get_obj_set.
  destruct (String.eqb_spec k k1) as [->|_]; [|reflexivity].
  rewrite (assoc_get_not_in _ _ Hnot); reflexivity.
Qed.

(** Field-level merge of an override onto an existing descriptor: in the
    merged descriptor each field is the override's when the override has
    it, and the existing descriptor's otherwise; the map entry for that
    name holds the merged descriptor. *)
Theorem apply_candidate_field_merge m s fa fb :
  s <> "" ->
  map_get (JStr s) m = Some (JObj fa) ->
  assoc_get "name" fb = Some (JStr s) ->
  NoDup (map fst fb) ->
  exists fs,
    map_get (JStr s) (apply_candidate m (JObj fb)) = Some (JObj fs) /\
    forall k, assoc_get k fs =
              match assoc_get k fb with Some v => Some v | None => assoc_get k fa end.
Proof.
  intros Hs Hm Hn Hnd.
  assert (Hhas : map_has (JStr s) m = true).
  { clear Hn Hnd; induction m as [|[k' w] m IH]; [discriminate|].
    cbn [map_get map_has] in *; destruct (key_eqb (JStr s) k'); [reflexivity|].
    rewrite orb_false_l; auto. }
  unfold apply_candidate, named_object; cbn [truthy is_object prop andb].
  rewrite Hn; cbn [truthy].
  destruct (String.eqb_spec s "") as [->|_]; [contradiction|]; cbn [negb].
  rewrite Hhas, Hm.
  exists (fold_left (fun acc kv => obj_set (fst kv) (snd kv) acc) fb fa).
  split.
  - unfold map_set; rewrite Hhas.
    clear Hhas Hn Hnd; induction m as [|[k' w] m IH]; [discriminate|].
    cbn [map_get map fst] in *.
    destruct (key_eqb (JStr s) k') eqn:E; cbn [fst] in *; rewrite ?E; [reflexivity|]. apply IH; exact Hm.
  - intros k; apply fold_obj_set_get; exact Hnd.
Qed.

Lemma apply_candidate_field_merge_witness :
  exists fs,
    map_get (JStr "data-gap")
      (apply_candidate [(JStr "data-gap", gap_root)] gap_override) = Some (JObj fs) /\
    forall k, assoc_get k fs =
      match assoc_get k [("name", JStr "data-gap"); ("defaultValue", JStr "0.5rem")] with
      | Some v => Some v
      | None => assoc_get k [("name", JStr "data-gap"); ("value", JStr "1rem")]
      end.
Proof.
  apply apply_candidate_field_merge; try reflexivity; [discriminate|].
  repeat constructor; simpl; intuition discriminate.
Defined.

(** *** Candidates that are not named objects *)

Lemma key_eqb_true_eq a b : key_eqb a b = true -> a = b.
Proof.
  destruct a, b; cbn [key_eqb]; intros H; try discriminate; try reflexivity.
  - apply Bool.eqb_prop in H; subst; reflexivity.
  - apply String.eqb_eq in H; subst; reflexivity.
  - apply String.eqb_eq in H; subst; reflexivity.
Qed.

Lemma key_eqb_str_refl s : key_eqb (JStr s) (JStr s) = true.
Proof. apply String.eqb_refl. Qed.

Lemma map_get_set_same k v m :
  key_eqb k k = true -> map_get k (map_set k v m) = Some v.
Proof.
  intros Hkk; unfold map_set; destruct (map_has k m) eqn:Hk.
  - induction m as [|[k1 w] m IH]; [discriminate|].
    cbn [map_has map map_get fst] in *.
    destruct (key_eqb k k1) eqn:E; cbn [map_get fst]; rewrite E; [reflexivity|].
    apply IH; exact Hk.
  - induction m as [|[k1 w] m IH]; cbn [app map_get].
    + rewrite Hkk; reflexivity.
    + cbn [map_has] in Hk; apply orb_false_iff in Hk as [Hk1 Hk2].
      rewrite Hk1; apply IH; exact Hk2.
Qed.

Lemma map_get_set_other k' k v m :
  key_eqb k' k = false -> map_get k' (map_set k v m) = map_get k' m.
Proof.
  intros Hne; unfold map_set; destruct (map_has k m).
  - induction m as [|[k1 w] m IH]; [reflexivity|].
    cbn [map map_get fst].
    destruct (key_eqb k k1) eqn:E; cbn [map_get fst]; [|rewrite IH; reflexivity].
    apply key_eqb_true_eq in E; subst k1; rewrite Hne, IH; reflexivity.
  - induction m as [|[k1 w] m IH]; cbn [app map_get].
    + rewrite Hne; reflexivity.
    + rewrite IH; reflexivity.
Qed.

(** A truthy candidate that is not an object with a truthy [name] (a
    string, a number, [true], an array, or an object without a name),
    and whose conversion [String(a)] does not throw, is keyed by that
    string, with the descriptor [{ name: String(a) }]; an earlier entry
    under that key is replaced, whatever fields it had, and every other
    key keeps its entry.  All nameless objects without a [toString]
    field share the key [[object Object]]. *)
Theorem apply_candidate_unnamed m a :
  named_object a = false ->
  truthy (Some a) = true ->
  json_to_string_throws a = false ->
  map_get (JStr (json_to_string a)) (apply_candidate m a)
    = Some (JObj [("name", JStr (json_to_string a))]) /\
  (forall k, key_eqb k (JStr (json_to_string a)) = false ->
             map_get k (apply_candidate m a) = map_get k m).
Proof.
  intros Hn Ht _; unfold apply_candidate; rewrite Hn, Ht; cbv zeta.
  split.
  - apply map_get_set_same, key_eqb_str_refl.
  - intros k Hk; apply map_get_set_other; exact Hk.
Qed.

(** A nameless object replaces a previously declared [[object Object]]
    entry. *)
Lemma apply_candidate_unnamed_witness :
  let m := [(JStr "[object Object]", JObj [("name", JStr "[object Object]");
                                          ("value", JStr "x")]);
            (JStr "data-gap", gap_root)] in
  let a := JObj [("description", JStr "no name")] in
  map_get (JStr (json_to_string a)) (apply_candidate m a)
    = Some (JObj [("name", JStr (json_to_string a))]) /\
  (forall k, key_eqb k (JStr (json_to_string a)) = false ->
             map_get k (apply_candidate m a) = map_get k m).
Proof.
  intros m a; apply apply_candidate_unnamed; reflexivity.
Defined.

Lemma build_items_none root rr ls l :
  In l ls -> layout_throws l (effectiveGlobals root l) = true -> build_items root rr ls = None.
Proof.
  intros Hin Ht; induction ls as [|l' ls IH]; [contradiction|].
  cbn [build_items].
  destruct Hin as [<-|Hin].
  - unfold build_item; cbv zeta; rewrite Ht; reflexivity.
  - destruct (build_item root rr l'); [|reflexivity].
    rewrite (IH Hin); reflexivity.
Qed.

Lemma existsb_In_true {A} (f : A -> bool) x xs : In x xs -> f x = true -> existsb f xs = true.
Proof. intros Hin Hf; apply existsb_exists; exists x; split; assumption. Qed.

(** Once the gates pass, a per-layout candidate that is an object without
    a truthy [name] but with a [toString] field makes [String(a)] throw:
    the provider throws and shows no suggestion at all. *)
Theorem provide_unnamed_toString_throws ld lp dt pos prefix l fs :
  dataMatch lp = Some prefix ->
  lastIndexOf "<"%char dt <> (-1)%Z ->
  (lastIndexOf ">"%char dt <= lastIndexOf "<"%char dt)%Z ->
  insideQuotes lp (string_drop (Z.to_nat (lastIndexOf "<"%char dt)) dt) = false ->
  In l (layouts ld) ->
  In (JObj fs) (per_layout_candidates l) ->
  truthy (assoc_get "name" fs) = false ->
  In "toString" (map fst fs) ->
  provideCompletionItems ld lp dt pos = Throws.
Proof.
  intros Hd Ho Hc Hq Hin Hcand Hname Hts.
  rewrite (provide_gates_pass _ _ _ pos _ Hd Ho Hc Hq).
  rewrite (build_items_none _ _ _ l Hin); [reflexivity|].
  assert (Hct : candidate_throws (JObj fs) = true).
  { unfold candidate_throws, named_object; cbn [truthy is_object prop json_to_string_throws].
    rewrite Hname; cbn [andb negb].
    apply in_map_iff in Hts as [[k v] [Hk Hkv]]; cbn [fst] in Hk; subst k.
    apply (existsb_In_true _ ("toString", v)); [exact Hkv|apply String.eqb_refl]. }
  unfold layout_throws; rewrite (existsb_In_true _ _ _ Hcand Hct).
  rewrite !orb_true_r; reflexivity.
Qed.

Definition layout_with_toString_default : json :=
  JObj [("name", JStr "grid"); ("label", JStr "Grid");
        ("globalAttributeDefaults", JArr [JObj [("toString", JNum "1")]])].

Lemma provide_unnamed_toString_throws_witness :
  provideCompletionItems (mkLoaded [layout_named "a"; layout_with_toString_default] None)
    "<a data-" "<a data-" (mkPos 0 8) = Throws.
Proof.
  apply (provide_unnamed_toString_throws _ _ _ _ "data-" layout_with_toString_default
           [("toString", JNum "1")]);
    try reflexivity; try discriminate.
  - cbn; right; left; reflexivity.
  - cbn; left; reflexivity.
  - cbn; left; reflexivity.
Defined.

(** ** The tag gate *)

Lemma last_index_from_app c x y i acc :
  last_index_from c (x ++ y) i acc
  = last_index_from c y (i + Z.of_nat (String.length x)) (last_index_from c x i acc).
Proof.
  revert i acc; induction x as [|d x IH]; intros i acc; cbn [append last_index_from String.length].
  - rewrite Z.add_0_r; reflexivity.
  - rewrite IH; f_equal; lia.
Qed.

Lemma last_index_from_none c s i acc :
  count_char c s = 0%nat -> last_index_from c s i acc = acc.
Proof.
  revert i; induction s as [|d s IH]; intros i H; [reflexivity|].
  cbn [count_char] in H; cbn [last_index_from].
  destruct (Ascii.eqb c d); [discriminate|]; apply IH; exact H.
Qed.

Lemma last_index_from_bounds c s i acc :
  (acc < i)%Z ->
  (acc <= last_index_from c s i acc < i + Z.of_nat (String.length s))%Z.
Proof.
  revert i acc; induction s as [|d s IH]; intros i acc H; cbn [last_index_from String.length].
  - lia.
  - specialize (IH (i + 1)%Z (if Ascii.eqb c d then i else acc)).
    destruct (Ascii.eqb c d); specialize (IH ltac:(lia)); lia.
Qed.

(** With no [<] anywhere before the cursor the provider returns
    [undefined]. *)
Theorem provide_no_open_tag ld lp dt pos :
  count_char "<"%char dt = 0%nat -> provideCompletionItems ld lp dt pos = Undefined.
Proof.
  intros H; unfold provideCompletionItems.
  destruct (dataMatch lp); [|reflexivity].
  unfold lastIndexOf; rewrite (last_index_from_none _ _ _ _ H); reflexivity.
Qed.

Lemma provide_no_open_tag_witness :
  count_char "<"%char ("data-" : string) = 0%nat /\
  provideCompletionItems schema_b_a "data-" "data-" (mkPos 0 5) = Undefined.
Proof. split; [reflexivity|apply provide_no_open_tag; reflexivity]. Defined.

(** Once a [>] follows the last [<] before the cursor (the tag is
    closed, as in text content after [<p>]), the provider returns
    [undefined]. *)
Theorem provide_after_closed_tag ld lp x y pos :
  count_char "<"%char y = 0%nat ->
  provideCompletionItems ld lp (x ++ ">" ++ y) pos = Undefined.
Proof.
  intros Hy; unfold provideCompletionItems.
  destruct (dataMatch lp); [|reflexivity].
  unfold lastIndexOf.
  rewrite !last_index_from_app; cbn [last_index_from String.length].
  cbn [Ascii.eqb Bool.eqb]; change (Z.of_nat 1) with 1%Z.
  rewrite (last_index_from_none "<"%char y _ _ Hy).
  pose proof (last_index_from_bounds "<"%char x 0 (-1) ltac:(lia)) as Ho.
  pose proof (last_index_from_bounds ">"%char x 0 (-1) ltac:(lia)) as Hc.
  set (o := last_index_from "<"%char x 0 (-1)) in *.
  set (n := Z.of_nat (String.length x)) in *.
  pose proof (last_index_from_bounds ">"%char y (0 + n + 1) (0 + n) ltac:(lia)) as Hc'.
  destruct (Z.ltb_spec o (last_index_from ">"%char y (0 + n + 1) (0 + n)));
    [rewrite orb_true_r; reflexivity | lia].
Qed.

Lemma provide_after_closed_tag_witness :
  count_char "<"%char (" data-" : string) = 0%nat /\
  provideCompletionItems schema_b_a "<p> data-" ("<p" ++ ">" ++ " data-") (mkPos 0 9)
    = Undefined.
Proof. split; [reflexivity|apply provide_after_closed_tag; reflexivity]. Defined.

(** ** The suggestion list *)

Lemma str_length_app a b : String.length (a ++ b) = (String.length a + String.length b)%nat.
Proof. induction a as [|c a IH]; cbn [append String.length]; [reflexivity|rewrite IH; reflexivity]. Qed.

Lemma Forall2_Forall_r {A B} (P : A -> B -> Prop) (Q : B -> Prop) xs ys :
  (forall x y, P x y -> Q y) -> Forall2 P xs ys -> Forall Q ys.
Proof. intros HPQ H; induction H; constructor; eauto. Qed.

Lemma Forall2_impl' {A B} (P Q : A -> B -> Prop) xs ys :
  (forall x y, P x y -> Q x y) -> Forall2 P xs ys -> Forall2 Q xs ys.
Proof. intros HPQ H; induction H; constructor; auto. Qed.

(** The list holds one suggestion per layout of the schema, in the
    schema's order; each is preselected and carries the effective global
    attribute map of its own layout. *)
Theorem provide_items_per_layout ld lp dt pos items :
  provideCompletionItems ld lp dt pos = Items items ->
  Forall2 (fun l it => preselect it = true /\
                       globals it = effectiveGlobals (rootGlobalAttributes ld) l)
          (layouts ld) items.
Proof.
  intros H; destruct (provide_items_inv _ _ _ _ _ H) as [prefix [_ Hb]].
  apply build_items_Forall2 in Hb.
  refine (Forall2_impl' _ _ _ _ _ Hb).
  intros l it Hit; destruct (build_item_fields _ _ _ _ Hit) as (_ & _ & _ & _ & Hp & _ & Hg).
  split; assumption.
Qed.

Lemma provide_items_per_layout_witness :
  exists items,
    provideCompletionItems schema_b_a "<a data-l" "<a data-l" (mkPos 0 9) = Items items /\
    Forall2 (fun l it => preselect it = true /\
                         globals it = effectiveGlobals (rootGlobalAttributes schema_b_a) l)
            (layouts schema_b_a) items.
Proof.
  eexists; split; [reflexivity|].
  apply (provide_items_per_layout schema_b_a "<a data-l" "<a data-l" (mkPos 0 9)).
  reflexivity.
Defined.


(** Once the gates pass, a single layout whose [label] is not a string
    makes the provider throw: no suggestion is shown, not even for the
    well-formed layouts. *)
Theorem provide_bad_label_throws ld lp dt pos prefix l :
  dataMatch lp = Some prefix ->
  lastIndexOf "<"%char dt <> (-1)%Z ->
  (lastIndexOf ">"%char dt <= lastIndexOf "<"%char dt)%Z ->
  insideQuotes lp (string_drop (Z.to_nat (lastIndexOf "<"%char dt)) dt) = false ->
  In l (layouts ld) ->
  is_string (prop (Some l) "label") = false ->
  provideCompletionItems ld lp dt pos = Throws.
Proof.
  intros Hd Ho Hc Hq Hin Hl.
  rewrite (provide_gates_pass _ _ _ pos _ Hd Ho Hc Hq).
  rewrite (build_items_none _ _ _ l Hin); [reflexivity|].
  unfold layout_throws; rewrite Hl; cbn [negb]; rewrite orb_true_r; reflexivity.
Qed.

Definition schema_missing_label : loaded :=
  mkLoaded [layout_named "a"; JObj [("name", JStr "b")]] None.

Lemma provide_bad_label_throws_witness :
  provideCompletionItems schema_missing_label "<a data-" "<a data-" (mkPos 0 8) = Throws.
Proof.
  apply (provide_bad_label_throws _ _ _ _ "data-" (JObj [("name", JStr "b")]));
    try reflexivity; try discriminate.
  cbn; right; left; reflexivity.
Defined.

(** The replacement span when the cursor is at the end of the line
    prefix: the prefix is [p], the matched token and an optional quote
    [q], and every suggestion's span starts at column [|p| + |q|].  When a
    quote was just typed the span starts one character after the [d] of
    [data] and ends after the quote. *)
Theorem provide_span_start ld lp dt pos items :
  provideCompletionItems ld lp dt pos = Items items ->
  character pos = Z.of_nat (String.length lp) ->
  exists p prefix q,
    lp = p ++ prefix ++ q /\ dataMatch lp = Some prefix /\ quote_suffix q /\
    Forall (fun it => fst (range it)
                      = mkPos (line pos) (Z.of_nat (String.length p + String.length q)))
           items.
Proof.
  intros H Hc; destruct (provide_items_inv _ _ _ _ _ H) as [prefix [Hd Hb]].
  destruct (match_from_sound None lp prefix Hd) as (p & tok & q & Heq & _ & _ & _ & Hq).
  exists p, prefix, q; split; [exact Heq|split; [exact Hd|split; [exact Hq|]]].
  apply build_items_Forall2 in Hb.
  refine (Forall2_Forall_r _ _ _ _ _ Hb).
  intros l it Hit; destruct (build_item_fields _ _ _ _ Hit) as (_ & _ & _ & Hr & _).
  rewrite Hr; cbn [fst]; f_equal.
  rewrite Hc, Heq, !str_length_app; lia.
Qed.

Lemma provide_span_start_witness :
  exists items,
    provideCompletionItems schema_b_a data_quote_input data_quote_input (mkPos 0 15)
      = Items items /\
    exists p prefix q,
      data_quote_input = p ++ prefix ++ q /\ dataMatch data_quote_input = Some prefix /\
      quote_suffix q /\
      Forall (fun it => fst (range it)
                        = mkPos 0 (Z.of_nat (String.length p + String.length q))) items.
Proof.
  eexists; split; [reflexivity|].
  apply (provide_span_start schema_b_a data_quote_input data_quote_input (mkPos 0 15));
    reflexivity.
Defined.

Definition nl : string := String (Ascii.ascii_of_nat 10) EmptyString.

(** Whatever else the open tag contains, a [data-layout] value among it,
    the suggestions are the same: once the gates pass, the list depends
    only on the schema, the line prefix and the position. *)
Theorem provide_independent_of_tag ld lp dt1 dt2 pos :
  lastIndexOf "<"%char dt1 <> (-1)%Z ->
  (lastIndexOf ">"%char dt1 <= lastIndexOf "<"%char dt1)%Z ->
  insideQuotes lp (string_drop (Z.to_nat (lastIndexOf "<"%char dt1)) dt1) = false ->
  lastIndexOf "<"%char dt2 <> (-1)%Z ->
  (lastIndexOf ">"%char dt2 <= lastIndexOf "<"%char dt2)%Z ->
  insideQuotes lp (string_drop (Z.to_nat (lastIndexOf "<"%char dt2)) dt2) = false ->
  provideCompletionItems ld lp dt1 pos = provideCompletionItems ld lp dt2 pos.
Proof.
  intros Ho1 Hc1 Hq1 Ho2 Hc2 Hq2.
  destruct (dataMatch lp) as [prefix|] eqn:Hd.
  - rewrite (provide_gates_pass _ _ _ pos _ Hd Ho1 Hc1 Hq1),
            (provide_gates_pass _ _ _ pos _ Hd Ho2 Hc2 Hq2); reflexivity.
  - unfold provideCompletionItems; rewrite Hd; reflexivity.
Qed.

Lemma provide_independent_of_tag_witness :
  provideCompletionItems schema_b_a "  data-" ("<div" ++ nl ++ "  data-") (mkPos 1 7)
  = provideCompletionItems schema_b_a "  data-"
      ("<div data-layout=" ++ dq ++ "grid" ++ dq ++ nl ++ "  data-") (mkPos 1 7).
Proof.
  apply provide_independent_of_tag; try reflexivity; try discriminate; vm_compute; discriminate.
Defined.

(** ** The change listener *)

Lemma listener_fold_count b cs n :
  fold_left (fun n t => if is_trigger_text t && b then S n else n) cs n
  = (n + (if b then List.length (filter is_trigger_text cs) else 0))%nat.
Proof.
  revert n; induction cs as [|t cs IH]; intros n; cbn [fold_left filter].
  - destruct b; cbn [List.length]; lia.
  - rewrite IH; destruct (is_trigger_text t), b; cbn [andb List.length]; lia.
Qed.

(** In an active editor of a recognized language, one change event
    requests the suggest widget once per change whose text is exactly
    [-], a double quote or a single quote, provided the line up to the
    cursor ends with [data-] after a word boundary; otherwise it requests
    nothing.  The line is the same for every change of the event, so the
    count is all or nothing. *)
Theorem changeListener_count lang cs lp :
  recognized_language lang = true ->
  changeListener true lang cs lp
  = if ends_with_data_dash lp then List.length (filter is_trigger_text cs) else 0%nat.
Proof.
  intros Hl; unfold changeListener; rewrite Hl; cbn [negb].
  rewrite listener_fold_count; reflexivity.
Qed.

Lemma changeListener_count_witness :
  changeListener true "vue" ["-"; "x"; "-"] "<div data-"
  = if ends_with_data_dash "<div data-" then
      List.length (filter is_trigger_text ["-"; "x"; "-"]) else 0%nat.
Proof. apply changeListener_count; reflexivity. Defined.

Lemma trigger_text_length t : is_trigger_text t = true -> String.length t = 1%nat.
Proof.
  unfold is_trigger_text, dq; intros H.
  apply orb_true_iff in H as [H|H]; [apply orb_true_iff in H as [H|H]|];
    apply String.eqb_eq in H; subst t; reflexivity.
Qed.

(** A change whose text is not a single character (a paste, an
    auto-closed pair of quotes, a deletion) never requests the suggest
    widget, even when the line ends with [data-]. *)
Theorem changeListener_multichar_silent active lang cs lp :
  Forall (fun t => String.length t <> 1%nat) cs ->
  changeListener active lang cs lp = 0%nat.
Proof.
  intros Hc; unfold changeListener.
  destruct (negb active); [reflexivity|].
  destruct (negb (recognized_language lang)); [reflexivity|].
  rewrite listener_fold_count.
  destruct (ends_with_data_dash lp); [|reflexivity].
  cbn [Nat.add]; apply length_zero_iff_nil.
  induction Hc as [|t cs Ht Hc IH]; [reflexivity|].
  cbn [filter]; destruct (is_trigger_text t) eqn:E; [|exact IH].
  apply trigger_text_length in E; contradiction.
Qed.

Lemma changeListener_multichar_silent_witness :
  changeListener true "html" [dq ++ dq; "data-"; ""] "<div data-" = 0%nat.
Proof.
  apply changeListener_multichar_silent.
  repeat constructor; cbn; discriminate.
Defined.

(** ** Root global attributes *)

Lemma root_fold_filter gs m :
  fold_left
    (fun m a =>
       if named_object a then
         match prop (Some a) "name" with
         | Some n => map_set n (spread2 (Some a) None) m
         | None => m
         end
       else m) gs m
  = fold_left
    (fun m a =>
       if named_object a then
         match prop (Some a) "name" with
         | Some n => map_set n (spread2 (Some a) None) m
         | None => m
         end
       else m) (filter named_object gs) m.
Proof.
  revert m; induction gs as [|a gs IH]; intros m; [reflexivity|].
  cbn [fold_left filter]; destruct (named_object a) eqn:E; cbn [fold_left]; rewrite ?E; apply IH.
Qed.

(** Root entries that are not objects with a truthy [name] are dropped:
    the root map is the one built from the named objects alone.  (The
    same entries in a layout's [globalAttributes] are kept, keyed by their
    string conversion.) *)
Theorem root_globals_named_only gs :
  root_globals (Some gs) = root_globals (Some (filter named_object gs)).
Proof.
  unfold root_globals.
  destruct gs as [|g gs]; [reflexivity|].
  rewrite root_fold_filter.
  destruct (filter named_object (g :: gs)) as [|h hs]; reflexivity.
Qed.
